(** * An expiring in-memory cache (package [cache], file utils/cache/cache.go)

    Shallow embedding of the Go package and the properties of its
    operations.

    - The [map[string]Item] is a [gmap string Item]; the map is assumed
      allocated (every constructor of the package receives or makes one).
    - [interface{}] payloads are [option V] for an arbitrary payload type
      [V]; [None] is Go's [nil].
    - [time.Duration] and the [int64] nanosecond stamps are integers of [Z];
      a [time.Time] is the number of nanoseconds since the Unix epoch, and
      [UnixNano] folds it into the [int64] range as the Go method does.
    - The methods run in a small state monad.  The state carries the fields of
      the [cache] struct, the successive readings of [time.Now()], and the
      trace of what the method did to the mutex and to the eviction hook.
      Calling a [nil] function value panics; [defer] runs on both exits.
    - The janitor goroutine only ever calls [DeleteExpired]; its [Run] loop
      is modelled along the cases its [select] takes, how it interleaves with
      the callers of the package is not. *)

From Stdlib Require Import ZArith Lia.
From stdpp Require Import base decidable option list strings gmap fin_maps.

Local Open Scope Z_scope.

(** ** The [time] package, as far as the cache uses it *)

Definition wrap64 (z : Z) : Z := (z + 2 ^ 63) mod 2 ^ 64 - 2 ^ 63.

Definition int64 (z : Z) : Prop := - 2 ^ 63 <= z < 2 ^ 63.

(** [time.Time{}]: January 1, year 1, 00:00:00 UTC. *)
Definition time_zero : Z := -62135596800 * 1000000000.

(** [time.Unix(sec, nsec)]. *)
Definition time_Unix (sec nsec : Z) : Z := sec * 1000000000 + nsec.

(** [t.Add(d)]. *)
Definition time_Add (t d : Z) : Z := t + d.

(** [t.UnixNano()]: computed in [int64], so it wraps. *)
Definition UnixNano (t : Z) : Z := wrap64 t.

(** The two sentinels of the package. *)
Definition NoExpiration : Z := -1.
Definition DefaultExpiration : Z := 0.

(** [fmt.Errorf("Item %s already exists", k)] and
    [fmt.Errorf("Item %s doesn't exist", k)]. *)
Definition KeyExists (k : string) : string :=
  ("Item " +:+ k +:+ " already exists")%string.
Definition KeyNotFound (k : string) : string :=
  ("Item " +:+ k +:+ " doesn't exist")%string.

Section Cache.

(** Payloads, and the function values that can be installed as hook. *)
Variables V Hook : Type.

Definition iface : Type := option V.

Record Item : Type := mkItem {
  Object : iface;
  Expiration : Z
}.

(** [Item.Expired], at the reading [now] of [time.Now().UnixNano()]. *)
Definition Expired (now : Z) (item : Item) : bool :=
  if decide (Expiration item = 0) then false
  else bool_decide (now > Expiration item).

Record cache : Type := mkCache {
  defaultExpiration : Z;
  items : gmap string Item;
  onEvicted : option Hook
}.

Definition keyAndValue : Type := (string * iface)%type.

Inductive event : Type :=
  | EvLock
  | EvUnlock
  | EvRLock
  | EvRUnlock
  | EvCall (f : Hook) (k : string) (v : iface).

Record world : Type := mkWorld {
  store : cache;
  clock : nat → Z;
  reads : nat;
  trace : list event
}.

(** The value the next call of [time.Now()] returns. *)
Definition now (w : world) : Z := clock w (reads w).

Inductive outcome (A : Type) : Type :=
  | Ret (a : A) (w : world)
  | Panic (w : world).
Arguments Ret {A} a w.
Arguments Panic {A} w.

Definition M (A : Type) : Type := world → outcome A.

Definition value {A} (o : outcome A) : option A :=
  match o with Ret a _ => Some a | Panic _ => None end.

Definition final {A} (o : outcome A) : world :=
  match o with Ret _ w => w | Panic w => w end.

Definition returns {A} (o : outcome A) : bool :=
  match o with Ret _ _ => true | Panic _ => false end.

#[local] Instance M_ret : MRet M := λ A a w, Ret a w.

#[local] Instance M_bind : MBind M := λ A B f m w,
  match m w with
  | Ret a w' => f a w'
  | Panic w' => Panic w'
  end.

(** [defer d] at the head of [body]: [d] runs when [body] returns and when
    it panics. *)
Definition defer {A} (d : M unit) (body : M A) : M A := λ w,
  match body w with
  | Ret a w' =>
      match d w' with
      | Ret _ w'' => Ret a w''
      | Panic w'' => Panic w''
      end
  | Panic w' => Panic (final (d w'))
  end.

Definition emit (e : event) : M unit := λ w,
  Ret tt (mkWorld (store w) (clock w) (reads w) (trace w ++ [e])).

Definition mu_Lock : M unit := emit EvLock.
Definition mu_Unlock : M unit := emit EvUnlock.
Definition mu_RLock : M unit := emit EvRLock.
Definition mu_RUnlock : M unit := emit EvRUnlock.

Definition time_Now : M Z := λ w,
  Ret (clock w (reads w)) (mkWorld (store w) (clock w) (S (reads w)) (trace w)).

Definition self : M cache := λ w, Ret (store w) w.

Definition modify (f : cache → cache) : M unit := λ w,
  Ret tt (mkWorld (f (store w)) (clock w) (reads w) (trace w)).

(** [c.items[k] = item] *)
Definition items_store (k : string) (item : Item) : M unit :=
  modify (λ c, mkCache (defaultExpiration c) (<[k:=item]> (items c)) (onEvicted c)).

(** [delete(c.items, k)], the builtin. *)
Definition items_delete (k : string) : M unit :=
  modify (λ c, mkCache (defaultExpiration c) (base.delete k (items c)) (onEvicted c)).

(** [c.onEvicted(k, v)] *)
Definition call_onEvicted (k : string) (v : iface) : M unit := λ w,
  match onEvicted (store w) with
  | Some f => emit (EvCall f k v) w
  | None => Panic w
  end.

(** ** The package *)

Definition newCache (de : Z) (m : gmap string Item) : cache :=
  let de := if decide (de = 0) then -1 else de in
  mkCache de m None.

(** The janitor started for [ci > 0] is a goroutine and is left out. *)
Definition newCacheWithJanitor (de ci : Z) (m : gmap string Item) : cache :=
  newCache de m.

Definition New (defaultExpiration cleanupInterval : Z) : cache :=
  newCacheWithJanitor defaultExpiration cleanupInterval ∅.

Definition NewFrom (defaultExpiration cleanupInterval : Z)
    (items : gmap string Item) : cache :=
  newCacheWithJanitor defaultExpiration cleanupInterval items.

(** [Set]; the name carries an underscore because [Set] is a sort. *)
Definition Set_ (k : string) (x : iface) (d : Z) : M unit :=
  c ← self;
  let d := if decide (d = DefaultExpiration) then defaultExpiration c else d in
  e ← (if decide (d > 0)
       then t ← time_Now; mret (UnixNano (time_Add t d))
       else mret 0);
  mu_Lock;;
  defer mu_Unlock (items_store k (mkItem x e)).

Definition set (k : string) (x : iface) (d : Z) : M unit :=
  c ← self;
  let d := if decide (d = DefaultExpiration) then defaultExpiration c else d in
  e ← (if decide (d > 0)
       then t ← time_Now; mret (UnixNano t)
       else mret 0);
  items_store k (mkItem x e).

Definition SetDefault (k : string) (x : iface) : M unit :=
  Set_ k x DefaultExpiration.

Definition get (k : string) : M (iface * bool) :=
  c ← self;
  match items c !! k with
  | None => mret (None, false)
  | Some item =>
      if decide (Expiration item > 0) then
        t ← time_Now;
        if decide (UnixNano t > Expiration item) then mret (None, false)
        else mret (Object item, true)
      else mret (Object item, true)
  end.

Definition Add (k : string) (x : iface) (d : Z) : M (option string) :=
  mu_Lock;;
  defer mu_Unlock (
    '(_, found) ← get k;
    if found : bool then mret (Some (KeyExists k))
    else set k x d;; mret None).

Definition Replace (k : string) (x : iface) (d : Z) : M (option string) :=
  mu_Lock;;
  defer mu_Unlock (
    '(_, found) ← get k;
    if negb found then mret (Some (KeyNotFound k))
    else set k x d;; mret None).

Definition Get (k : string) : M (iface * bool) :=
  mu_Lock;;
  defer mu_Unlock (
    c ← self;
    match items c !! k with
    | None => mret (None, false)
    | Some item =>
        if decide (Expiration item > 0) then
          t ← time_Now;
          if decide (UnixNano t > Expiration item) then mret (None, false)
          else mret (Object item, true)
        else mret (Object item, true)
    end).

Definition GetWithExpiration (k : string) : M (iface * Z * bool) :=
  mu_Lock;;
  defer mu_Unlock (
    c ← self;
    match items c !! k with
    | None => mret (None, time_zero, false)
    | Some item =>
        if decide (Expiration item > 0) then
          t ← time_Now;
          if decide (UnixNano t > Expiration item)
          then mret (None, time_zero, false)
          else mret (Object item, time_Unix 0 (Expiration item), true)
        else mret (Object item, time_zero, true)
    end).

Definition delete (k : string) : M (iface * bool) :=
  c ← self;
  match onEvicted c, items c !! k with
  | Some _, Some v => items_delete k;; mret (Object v, true)
  | _, _ => items_delete k;; mret (None, false)
  end.

Definition Delete (k : string) : M unit :=
  mu_Lock;;
  defer mu_Unlock (
    '(v, evicted) ← delete k;
    if evicted : bool then call_onEvicted k v else mret tt).

(** The body of the [range c.items] loop of [DeleteExpired], over the
    entries in the order the iteration meets them. *)
Fixpoint expire_range (now : Z) (entries : list (string * Item))
    (evictedItems : list keyAndValue) : M (list keyAndValue) :=
  match entries with
  | [] => mret evictedItems
  | (k, v) :: rest =>
      if decide (Expiration v > 0 ∧ now > Expiration v) then
        '(ov, evicted) ← delete k;
        expire_range now rest
          (if evicted : bool then evictedItems ++ [(k, ov)] else evictedItems)
      else expire_range now rest evictedItems
  end.

Fixpoint evict_range (evictedItems : list keyAndValue) : M unit :=
  match evictedItems with
  | [] => mret tt
  | v :: rest => call_onEvicted v.1 v.2;; evict_range rest
  end.

Definition DeleteExpired : M unit :=
  t ← time_Now;
  let now := UnixNano t in
  mu_Lock;;
  c ← self;
  evictedItems ← expire_range now (map_to_list (items c)) [];
  mu_Unlock;;
  evict_range evictedItems.

Definition OnEvicted (f : option Hook) : M unit :=
  mu_Lock;;
  modify (λ c, mkCache (defaultExpiration c) (items c) f);;
  mu_Unlock.

Definition ItemCount : M nat :=
  mu_RLock;;
  c ← self;
  let n := size (items c) in
  mu_RUnlock;;
  mret n.

Definition Flush : M unit :=
  mu_Lock;;
  modify (λ c, mkCache (defaultExpiration c) ∅ (onEvicted c));;
  mu_Unlock.

(** The body of the [range c.items] loop of [Items]. *)
Fixpoint items_range (now : Z) (entries : list (string * Item))
    (m : gmap string Item) : gmap string Item :=
  match entries with
  | [] => m
  | (k, v) :: rest =>
      if decide (Expiration v > 0 ∧ now > Expiration v)
      then items_range now rest m
      else items_range now rest (<[k:=v]> m)
  end.

Definition Items : M (gmap string Item) :=
  mu_RLock;;
  defer mu_RUnlock (
    c ← self;
    t ← time_Now;
    mret (items_range (UnixNano t) (map_to_list (items c)) ∅)).

(** The body of the [range c.items] loop of [Objects]. *)
Fixpoint objects_range (now : Z) (entries : list (string * Item))
    (m : gmap string iface) : gmap string iface :=
  match entries with
  | [] => m
  | (k, v) :: rest =>
      if decide (Expiration v > 0 ∧ now > Expiration v)
      then objects_range now rest m
      else objects_range now rest (<[k:=Object v]> m)
  end.

Definition Objects : M (gmap string iface) :=
  mu_RLock;;
  defer mu_RUnlock (
    c ← self;
    t ← time_Now;
    mret (objects_range (UnixNano t) (map_to_list (items c)) ∅)).

(** The case a [select] of [janitor.Run] takes: a tick of the ticker, or
    the stop signal. *)
Inductive selected : Type :=
  | TickerC
  | JanitorStop.

(** The loop of [janitor.Run], along the cases its [select] takes one after
    the other.  The result says whether [Run] has returned; when the cases
    are used up before a stop signal, it is still waiting in the
    [select]. *)
Fixpoint janitor_Run (cases : list selected) : M bool :=
  match cases with
  | [] => mret false
  | TickerC :: rest => DeleteExpired;; janitor_Run rest
  | JanitorStop :: _ => mret true
  end.

End Cache.

Arguments mkItem {V} Object Expiration.
Arguments Object {V} i.
Arguments Expiration {V} i.
Arguments Expired {V} now item.
Arguments mkCache {V Hook} defaultExpiration items onEvicted.
Arguments defaultExpiration {V Hook} c.
Arguments items {V Hook} c.
Arguments onEvicted {V Hook} c.
Arguments EvLock {V Hook}.
Arguments EvUnlock {V Hook}.
Arguments EvRLock {V Hook}.
Arguments EvRUnlock {V Hook}.
Arguments EvCall {V Hook} f k v.
Arguments mkWorld {V Hook} store clock reads trace.
Arguments store {V Hook} w.
Arguments clock {V Hook} w n.
Arguments reads {V Hook} w.
Arguments trace {V Hook} w.
Arguments now {V Hook} w.
Arguments Ret {V Hook A} a w.
Arguments Panic {V Hook A} w.
Arguments value {V Hook A} o.
Arguments final {V Hook A} o.
Arguments returns {V Hook A} o.
Arguments defer {V Hook A} d body w.
Arguments emit {V Hook} e w.
Arguments time_Now {V Hook} w.
Arguments self {V Hook} w.
Arguments modify {V Hook} f w.
Arguments items_store {V Hook} k item w.
Arguments items_delete {V Hook} k w.
Arguments call_onEvicted {V Hook} k v w.
Arguments newCache {V Hook} de m.
Arguments newCacheWithJanitor {V Hook} de ci m.
Arguments New {V Hook} defaultExpiration cleanupInterval.
Arguments NewFrom {V Hook} defaultExpiration cleanupInterval items.
Arguments Set_ {V Hook} k x d w.
Arguments set {V Hook} k x d w.
Arguments SetDefault {V Hook} k x w.
Arguments get {V Hook} k w.
Arguments Add {V Hook} k x d w.
Arguments Replace {V Hook} k x d w.
Arguments Get {V Hook} k w.
Arguments GetWithExpiration {V Hook} k w.
Arguments delete {V Hook} k w.
Arguments Delete {V Hook} k w.
Arguments expire_range {V Hook} now entries evictedItems w.
Arguments evict_range {V Hook} evictedItems w.
Arguments DeleteExpired {V Hook} w.
Arguments OnEvicted {V Hook} f w.
Arguments ItemCount {V Hook} w.
Arguments Flush {V Hook} w.
Arguments items_range {V} now entries m.
Arguments Items {V Hook} w.
Arguments objects_range {V} now entries m.
Arguments Objects {V Hook} w.
Arguments janitor_Run {V Hook} cases w.

(** ** Unfolding the monad *)

Create HintDb cache_ops discriminated.

#[local] Hint Unfold Set_ set SetDefault get Add Replace Get GetWithExpiration
  delete Delete DeleteExpired OnEvicted ItemCount Flush Items
  mu_Lock mu_Unlock mu_RLock mu_RUnlock items_store items_delete
  call_onEvicted modify self time_Now emit defer
  mbind M_bind mret M_ret now DefaultExpiration NoExpiration : cache_ops.

#[local] Hint Unfold Objects : cache_ops.

Ltac run := autounfold with cache_ops; cbn.

(** ** Traces *)

Section Traces.
Context {V Hook : Type}.

(** No hook call of [tr] happens while the mutex is held; [held] says
    whether it is held before [tr]. *)
Fixpoint calls_unguarded (held : bool) (tr : list (event V Hook)) : bool :=
  match tr with
  | [] => true
  | EvLock :: tr' | EvRLock :: tr' => calls_unguarded true tr'
  | EvUnlock :: tr' | EvRUnlock :: tr' => calls_unguarded false tr'
  | EvCall _ _ _ :: tr' => negb held && calls_unguarded held tr'
  end.

(** The hook calls of a trace, in order. *)
Fixpoint calls (tr : list (event V Hook)) : list (string * iface V) :=
  match tr with
  | [] => []
  | EvCall _ k v :: tr' => (k, v) :: calls tr'
  | _ :: tr' => calls tr'
  end.

(** Whether the mutex is held after the events of [tr]; [held] says
    whether it is held before them. *)
Fixpoint held_after (held : bool) (tr : list (event V Hook)) : bool :=
  match tr with
  | [] => held
  | EvLock :: tr' | EvRLock :: tr' => held_after true tr'
  | EvUnlock :: tr' | EvRUnlock :: tr' => held_after false tr'
  | EvCall _ _ _ :: tr' => held_after held tr'
  end.

(** What an operation started in [w] added to the trace. *)
Definition emitted {A} (w : world V Hook) (o : outcome V Hook A)
    : list (event V Hook) :=
  drop (length (trace w)) (trace (final o)).

(** An entry has a deadline and the reading [t] of the clock is past it:
    the test of [Get], [Items] and [DeleteExpired]. *)
Definition dead (t : Z) (kv : string * Item V) : Prop :=
  Expiration kv.2 > 0 ∧ t > Expiration kv.2.

#[global] Instance dead_dec t kv : Decision (dead t kv).
Proof. unfold dead. apply _. Defined.

(** The key and the payload of an entry: what the hook is called with. *)
Definition evicted_pair (kv : string * Item V) : string * iface V :=
  (kv.1, Object kv.2).

(** The map after the builtin [delete] was applied to the keys of [l]. *)
Definition delete_keys (l : list (string * Item V))
    (m : gmap string (Item V)) : gmap string (Item V) :=
  foldl (λ m kv, base.delete kv.1 m) m l.

(** The calls a client of the package can make, and the state a sequence
    of them leaves behind. *)
Inductive call : Type :=
  | CallSet (k : string) (x : iface V) (d : Z)
  | CallSetDefault (k : string) (x : iface V)
  | CallAdd (k : string) (x : iface V) (d : Z)
  | CallReplace (k : string) (x : iface V) (d : Z)
  | CallGet (k : string)
  | CallGetWithExpiration (k : string)
  | CallDelete (k : string)
  | CallDeleteExpired
  | CallOnEvicted (f : option Hook)
  | CallItemCount
  | CallFlush
  | CallItems.

Definition exec (c : call) (w : world V Hook) : world V Hook :=
  match c with
  | CallSet k x d => final (Set_ k x d w)
  | CallSetDefault k x => final (SetDefault k x w)
  | CallAdd k x d => final (Add k x d w)
  | CallReplace k x d => final (Replace k x d w)
  | CallGet k => final (Get k w)
  | CallGetWithExpiration k => final (GetWithExpiration k w)
  | CallDelete k => final (Delete k w)
  | CallDeleteExpired => final (DeleteExpired w)
  | CallOnEvicted f => final (OnEvicted f w)
  | CallItemCount => final (ItemCount w)
  | CallFlush => final (Flush w)
  | CallItems => final (Items w)
  end.

Definition exec_all (cs : list call) (w : world V Hook) : world V Hook :=
  foldl (λ w c, exec c w) w cs.

End Traces.

(** ** Sample states *)

Definition sample_clock (n : nat) : Z := 100 + Z.of_nat n.

(** A fresh store, [New(0, 0)], with the clock at 100ns and ticking by one
    at each reading. *)
Definition sample_empty : world nat unit :=
  mkWorld (New 0 0) sample_clock 0 [].

(** ["k"] has the deadline 50, ["z"] has none. *)
Definition sample_items : gmap string (Item nat) :=
  <["k" := mkItem (Some 7%nat) 50]> (<["z" := mkItem (Some 8%nat) 0]> ∅).

(** A store holding [sample_items], with a hook installed. *)
Definition sample_hooked : world nat unit :=
  mkWorld (mkCache (-1) sample_items (Some tt)) sample_clock 0 [].

(** A store holding [sample_items], with the default duration 10ns and no
    hook. *)
Definition sample_timed : world nat unit :=
  mkWorld (NewFrom 10 0 sample_items) sample_clock 0 [].

(** ** Properties *)

Section Properties.
Context {V Hook : Type}.
Implicit Types (w : world V Hook) (k : string) (x v : iface V) (d t : Z)
  (it : Item V) (m : gmap string (Item V)).

Lemma wrap64_int64 z : int64 z → wrap64 z = z.
Proof.
  unfold int64, wrap64. intros Hz.
  rewrite Z.mod_small; lia.
Qed.

Lemma wrap64_overflow z : 2 ^ 63 <= z < 2 ^ 64 → wrap64 z = z - 2 ^ 64.
Proof.
  unfold wrap64. intros Hz.
  replace (z + 2 ^ 63) with ((z - 2 ^ 63) + 1 * 2 ^ 64) by lia.
  rewrite Z.mod_add by lia. rewrite Z.mod_small; lia.
Qed.

Lemma wrap64_range z : int64 (wrap64 z).
Proof.
  unfold int64, wrap64.
  pose proof (Z.mod_pos_bound (z + 2 ^ 63) (2 ^ 64)). lia.
Qed.

(** [time.Unix(0, e)] of an [int64] stamp is never the zero [Time]. *)
Lemma time_Unix_not_zero e : int64 e → time_Unix 0 e ≠ time_zero.
Proof. unfold int64, time_Unix, time_zero. lia. Qed.

Lemma Get_value w k :
  value (Get k w) =
  Some match items (store w) !! k with
       | None => (None, false)
       | Some it =>
           if decide (dead (UnixNano (now w)) (k, it)) then (None, false)
           else (Object it, true)
       end.
Proof.
  run. destruct (items (store w) !! k) as [it|]; cbn; [|done].
  unfold dead; cbn.
  destruct (decide (Expiration it > 0)); cbn.
  - destruct (decide (UnixNano (clock w (reads w)) > Expiration it)); cbn.
    + rewrite decide_True; done.
    + rewrite decide_False; [done | tauto].
  - rewrite decide_False; [done | tauto].
Qed.

Lemma Get_store w k : store (final (Get k w)) = store w.
Proof.
  run. destruct (items (store w) !! k) as [it|]; cbn; [|done].
  repeat (case_decide; cbn); done.
Qed.

Lemma Set_value w k x d :
  Set_ k x d w =
  let d' := if decide (d = 0) then defaultExpiration (store w) else d in
  Ret tt (mkWorld
    (mkCache (defaultExpiration (store w))
       (<[k := mkItem x (if decide (d' > 0) then UnixNano (now w + d') else 0)]>
          (items (store w)))
       (onEvicted (store w)))
    (clock w)
    (if decide (d' > 0) then S (reads w) else reads w)
    (trace w ++ [EvLock; EvUnlock])).
Proof.
  run. unfold time_Add.
  destruct (decide ((if decide (d = 0) then defaultExpiration (store w) else d) > 0));
    cbn; rewrite <- app_assoc; done.
Qed.

(** C2. A [Set] with a positive duration [d], at a clock reading on or after
    the epoch, stores a deadline of write time plus [d]: a [Get] whose clock
    reading is not past that deadline (in particular an immediate one)
    returns the value and [true], and a [Get] whose reading is past it
    returns [nil] and [false]. *)
Theorem Set_then_Get w k x d :
  0 < d → int64 d → 0 <= now w → int64 (now w) →
  returns (Set_ k x d w) = true ∧
  ∀ w2, store w2 = store (final (Set_ k x d w)) → int64 (now w2) →
    (now w2 <= now w + d → value (Get k w2) = Some (x, true)) ∧
    (now w + d < now w2 → value (Get k w2) = Some (None, false)).
Proof.
  intros Hd Hd64 Hnow Hnow64. rewrite Set_value; cbn.
  rewrite (decide_False (P := d = 0)) by lia.
  rewrite (decide_True (P := d > 0)) by lia.
  split; [done|]. intros w2 Hst Hw2.
  rewrite Get_value, Hst; cbn. rewrite lookup_insert_eq.
  unfold UnixNano, dead, int64 in *; cbn.
  rewrite (wrap64_int64 (now w2)) by done.
  destruct (decide (now w + d < 2 ^ 63)) as [Hsmall|Hbig].
  - rewrite (wrap64_int64 (now w + d)) by (unfold int64; lia).
    split; intros Hcmp.
    + rewrite decide_False; [done | lia].
    + rewrite decide_True; [done | lia].
  - rewrite (wrap64_overflow (now w + d)) by lia.
    split; intros Hcmp.
    + rewrite decide_False; [done | lia].
    + lia.
Qed.

Lemma get_eq w k :
  get k w =
  match items (store w) !! k with
  | None => Ret (None, false) w
  | Some it =>
      if decide (Expiration it > 0) then
        Ret (if decide (dead (UnixNano (now w)) (k, it)) then (None, false)
             else (Object it, true))
            (mkWorld (store w) (clock w) (S (reads w)) (trace w))
      else Ret (Object it, true) w
  end.
Proof.
  run. destruct (items (store w) !! k) as [it|]; cbn; [|done].
  unfold dead; cbn.
  destruct (decide (Expiration it > 0)); cbn; [|done].
  destruct (decide (UnixNano (clock w (reads w)) > Expiration it)); cbn.
  - rewrite decide_True; done.
  - rewrite decide_False; [done | tauto].
Qed.

(** The found flag of [get] says that the key holds a live entry. *)
Lemma get_found w k :
  snd <$> value (get k w) = Some true ↔
  ∃ it, items (store w) !! k = Some it ∧ ¬ dead (UnixNano (now w)) (k, it).
Proof.
  rewrite get_eq. unfold dead; cbn.
  destruct (items (store w) !! k) as [it|]; cbn.
  - destruct (decide (Expiration it > 0)); cbn.
    + case_decide; cbn; split.
      * done.
      * intros (it' & [= <-] & Hn). tauto.
      * intros _. exists it. tauto.
      * done.
    + split; [|done]. intros _. exists it. tauto.
  - split; [done|]. intros (it & ? & _). done.
Qed.

(** What the unexported [set] stores: for a positive duration the stamp is
    the clock reading itself, the duration is not added to it. *)
Lemma set_eq w k x d :
  set k x d w =
  let d' := if decide (d = 0) then defaultExpiration (store w) else d in
  Ret tt (mkWorld
    (mkCache (defaultExpiration (store w))
       (<[k := mkItem x (if decide (d' > 0) then UnixNano (now w) else 0)]>
          (items (store w)))
       (onEvicted (store w)))
    (clock w)
    (if decide (d' > 0) then S (reads w) else reads w)
    (trace w)).
Proof.
  run.
  destruct (decide ((if decide (d = 0) then defaultExpiration (store w) else d) > 0));
    cbn; done.
Qed.

(** [Add] on a key whose entry is live at the reading of the clock fails
    with the "already exists" error and leaves the store as it was. *)
Lemma Add_live w k x d it :
  items (store w) !! k = Some it →
  ¬ dead (UnixNano (now w)) (k, it) →
  value (Add k x d w) = Some (Some (KeyExists k)) ∧
  store (final (Add k x d w)) = store w.
Proof.
  unfold dead; run. intros Hk Hlive. rewrite Hk; cbn.
  repeat (case_decide; cbn); try done; tauto.
Qed.

(** [Add] on a key that holds no live entry succeeds and writes through
    [set]. *)
Lemma Add_fresh w k x d :
  items (store w) !! k = None →
  value (Add k x d w) = Some None ∧
  items (store (final (Add k x d w))) !! k =
    Some (mkItem x
      (let d' := if decide (d = 0) then defaultExpiration (store w) else d in
       if decide (d' > 0) then UnixNano (now w) else 0)).
Proof.
  run. intros Hk. rewrite Hk; cbn.
  repeat (case_decide; cbn); rewrite lookup_insert_eq; done.
Qed.

(** C5. [Replace] on a key that is absent, or whose entry is past its
    deadline at the reading of the clock, fails with the "doesn't exist"
    error and leaves the store as it was; and a [Replace] that succeeds found
    a live entry under the key. *)
Theorem Replace_needs_live_entry w k x d :
  ((items (store w) !! k = None ∨
    ∃ it, items (store w) !! k = Some it ∧ dead (UnixNano (now w)) (k, it)) →
   value (Replace k x d w) = Some (Some (KeyNotFound k)) ∧
   store (final (Replace k x d w)) = store w) ∧
  (value (Replace k x d w) = Some None →
   ∃ it, items (store w) !! k = Some it ∧ ¬ dead (UnixNano (now w)) (k, it)).
Proof.
  unfold dead; run.
  destruct (items (store w) !! k) as [it|]; cbn.
  - repeat (case_decide; cbn); (split; [intros [[=]|(it' & [= <-] & Hd)] | intros Hv]);
      try done; try tauto; exists it; tauto.
  - split; [done|]. intros [=].
Qed.

Lemma ItemCount_value w : value (ItemCount w) = Some (size (items (store w))).
Proof. done. Qed.

(** C6. [Flush] returns, leaves the store empty, so that [ItemCount] is 0
    right after it, and all it adds to the trace is taking and releasing the
    mutex: the hook is not called, whether one is installed or not. *)
Theorem Flush_empties_without_eviction w :
  returns (Flush w) = true ∧
  items (store (final (Flush w))) = ∅ ∧
  value (ItemCount (final (Flush w))) = Some 0%nat ∧
  emitted w (Flush w) = [EvLock; EvUnlock] ∧
  calls (emitted w (Flush w)) = [].
Proof.
  assert (Hem : emitted w (Flush w) = [EvLock; EvUnlock]).
  { unfold emitted; run. rewrite <- app_assoc, drop_app_length. done. }
  rewrite Hem. repeat split; done.
Qed.

Lemma Delete_eq w k :
  Delete k w =
  Ret tt (mkWorld
    (mkCache (defaultExpiration (store w)) (base.delete k (items (store w)))
       (onEvicted (store w)))
    (clock w) (reads w)
    (trace w ++
       match onEvicted (store w), items (store w) !! k with
       | Some f, Some it => [EvLock; EvCall f k (Object it); EvUnlock]
       | _, _ => [EvLock; EvUnlock]
       end)).
Proof.
  run. destruct (onEvicted (store w)) as [f|] eqn:Hf; cbn.
  - destruct (items (store w) !! k) as [it|]; cbn;
      rewrite ?Hf; cbn; rewrite <- !app_assoc; done.
  - rewrite Hf, <- !app_assoc. done.
Qed.

(** C7. [Delete] always returns (it never panics, also with no hook
    installed).  On an absent key the map is left as it was and the hook is
    not called.  On a present key the entry is removed, and when a hook is
    installed it is called once with the key and the stored value before
    [Delete] returns. *)
Theorem Delete_spec w k :
  returns (Delete k w) = true ∧
  (items (store w) !! k = None →
   items (store (final (Delete k w))) = items (store w) ∧
   calls (emitted w (Delete k w)) = []) ∧
  (∀ it, items (store w) !! k = Some it →
   items (store (final (Delete k w))) = base.delete k (items (store w)) ∧
   items (store (final (Delete k w))) !! k = None ∧
   calls (emitted w (Delete k w)) =
     match onEvicted (store w) with
     | Some _ => [(k, Object it)]
     | None => []
     end).
Proof.
  unfold emitted. rewrite Delete_eq; cbn. rewrite drop_app_length.
  split; [done|]. split.
  - intros Hk. rewrite Hk. split.
    + by apply delete_id.
    + destruct (onEvicted (store w)); done.
  - intros it Hk. rewrite Hk, lookup_delete_eq.
    destruct (onEvicted (store w)); done.
Qed.

(** The hook call of [Delete] sits between taking the mutex and the
    deferred release. *)
Lemma Delete_calls_hook_under_lock w k f it :
  onEvicted (store w) = Some f →
  items (store w) !! k = Some it →
  emitted w (Delete k w) = [EvLock; EvCall f k (Object it); EvUnlock] ∧
  calls_unguarded false (emitted w (Delete k w)) = false.
Proof.
  intros Hf Hk. unfold emitted. rewrite Delete_eq; cbn.
  rewrite drop_app_length, Hf, Hk. done.
Qed.

Lemma GetWithExpiration_value w k :
  value (GetWithExpiration k w) =
  Some match items (store w) !! k with
       | None => (None, time_zero, false)
       | Some it =>
           if decide (Expiration it > 0) then
             if decide (UnixNano (now w) > Expiration it)
             then (None, time_zero, false)
             else (Object it, time_Unix 0 (Expiration it), true)
           else (Object it, time_zero, true)
       end.
Proof.
  run. destruct (items (store w) !! k) as [it|]; cbn; [|done].
  repeat (case_decide; cbn); done.
Qed.

(** C8. [GetWithExpiration] finds a key exactly when [Get] does and returns
    the same value.  For a live entry with a deadline it also returns the
    deadline as a [Time], which is not the zero [Time]; for a live entry
    without deadline it returns the zero [Time]; for an absent key and for an
    entry past its deadline it returns [nil], the zero [Time] and [false]. *)
Theorem GetWithExpiration_spec w k :
  (λ r, (r.1.1, r.2)) <$> value (GetWithExpiration k w) = value (Get k w) ∧
  (∀ it, items (store w) !! k = Some it → Expiration it > 0 →
     ¬ UnixNano (now w) > Expiration it →
     value (GetWithExpiration k w) =
       Some (Object it, time_Unix 0 (Expiration it), true) ∧
     time_Unix 0 (Expiration it) = Expiration it ∧
     (int64 (Expiration it) → time_Unix 0 (Expiration it) ≠ time_zero)) ∧
  (∀ it, items (store w) !! k = Some it → Expiration it <= 0 →
     value (GetWithExpiration k w) = Some (Object it, time_zero, true)) ∧
  ((items (store w) !! k = None ∨
    ∃ it, items (store w) !! k = Some it ∧ dead (UnixNano (now w)) (k, it)) →
   value (GetWithExpiration k w) = Some (None, time_zero, false)).
Proof.
  unfold dead; run. split; [|split; [|split]].
  - destruct (items (store w) !! k) as [it|]; cbn; [|done].
    repeat (case_decide; cbn); done.
  - intros it Hk Hpos Hlive. rewrite Hk; cbn.
    rewrite decide_True by done; cbn. rewrite decide_False by done; cbn.
    split; [done|]. split.
    + unfold time_Unix. lia.
    + apply time_Unix_not_zero.
  - intros it Hk He. rewrite Hk; cbn. rewrite decide_False by lia. done.
  - intros [Hk|(it & Hk & He1 & He2)]; rewrite Hk; cbn; [done|].
    rewrite !decide_True by done. done.
Qed.

Lemma lookup_delete_keys (l : list (string * Item V)) m k :
  delete_keys l m !! k = if decide (k ∈ l.*1) then None else m !! k.
Proof.
  revert m. induction l as [|[k' v'] l IH]; intros m; cbn.
  - rewrite decide_False; [done | apply not_elem_of_nil].
  - unfold delete_keys in *; cbn. rewrite IH.
    destruct (decide (k ∈ l.*1)) as [Hin|Hin].
    + rewrite decide_True; [done | by right].
    + destruct (decide (k = k')) as [->|Hne].
      * rewrite lookup_delete_eq, decide_True; [done | by left].
      * rewrite lookup_delete_ne by done.
        rewrite decide_False; [done|]. rewrite elem_of_cons. tauto.
Qed.

(** Deleting the keys of the entries that satisfy [P] is filtering them
    out. *)
Lemma delete_keys_filter (P : string * Item V → Prop)
    `{!∀ kv, Decision (P kv)} m :
  delete_keys (filter P (map_to_list m)) m = filter (λ kv, ¬ P kv) m.
Proof.
  apply map_eq; intros k. rewrite lookup_delete_keys.
  destruct (decide (k ∈ (filter P (map_to_list m)).*1)) as [Hin|Hin].
  - symmetry. apply map_lookup_filter_None. right. intros it Hk HP.
    apply list_elem_of_fmap in Hin as ([k' it'] & -> & Hin).
    apply list_elem_of_filter in Hin as [HP' Hin].
    apply elem_of_map_to_list in Hin. cbn in Hk, HP.
    assert (it = it') by congruence. subst it. done.
  - destruct (m !! k) as [it|] eqn:Hk; symmetry.
    + apply map_lookup_filter_Some. split; [done|]. intros HP. apply Hin.
      apply list_elem_of_fmap. exists (k, it). split; [done|].
      apply list_elem_of_filter. split; [done|]. by apply elem_of_map_to_list.
    + apply map_lookup_filter_None. by left.
Qed.

Lemma expire_range_eq t (l : list (string * Item V)) acc w :
  NoDup l.*1 →
  (∀ k it, (k, it) ∈ l → items (store w) !! k = Some it) →
  expire_range t l acc w =
  Ret (acc ++ match onEvicted (store w) with
              | Some _ => evicted_pair <$> filter (dead t) l
              | None => []
              end)
      (mkWorld
         (mkCache (defaultExpiration (store w))
            (delete_keys (filter (dead t) l) (items (store w)))
            (onEvicted (store w)))
         (clock w) (reads w) (trace w)).
Proof.
  revert acc w. induction l as [|[k it] l IH]; intros acc w Hnd Hin.
  - cbn. destruct w as [[de m h] c r tr]; cbn.
    destruct h; rewrite app_nil_r; done.
  - cbn in Hnd. apply NoDup_cons in Hnd as [Hk Hnd].
    assert (Hit : items (store w) !! k = Some it) by (apply Hin; left).
    cbn [expire_range].
    destruct (decide (Expiration it > 0 ∧ t > Expiration it)) as [Hd|Hd].
    + rewrite (filter_cons_True (dead t)) by done.
      assert (Hin' : ∀ k' it', (k', it') ∈ l →
                base.delete k (items (store w)) !! k' = Some it').
      { intros k' it' Hl. rewrite lookup_delete_ne.
        - apply Hin. by right.
        - intros <-. apply Hk. apply list_elem_of_fmap. by exists (k, it'). }
      run. destruct (onEvicted (store w)) as [f|] eqn:Hf; cbn;
        rewrite ?Hit; cbn; rewrite IH by done; cbn; rewrite ?Hf; [|done].
      rewrite <- app_assoc. done.
    + rewrite (filter_cons_False (dead t)) by done.
      apply IH; [done|]. intros k' it' Hl. apply Hin. by right.
Qed.

Lemma evict_range_eq (l : list (string * iface V)) w f :
  onEvicted (store w) = Some f →
  evict_range l w =
  Ret tt (mkWorld (store w) (clock w) (reads w)
            (trace w ++ ((λ kv, EvCall f kv.1 kv.2) <$> l))).
Proof.
  revert w. induction l as [|[k v] l IH]; intros w Hf; cbn.
  - rewrite app_nil_r. by destruct w.
  - run. rewrite Hf; cbn. rewrite IH by done. cbn. rewrite <- app_assoc. done.
Qed.

Lemma calls_hook_events (f : Hook) (l : list (string * iface V)) :
  calls ((λ kv, EvCall f kv.1 kv.2) <$> l) = l.
Proof. induction l as [|[k v] l IH]; cbn; [done | by rewrite IH]. Qed.

Lemma calls_unguarded_hook_events (f : Hook) (l : list (string * iface V)) :
  calls_unguarded false ((λ kv, EvCall f kv.1 kv.2) <$> l) = true.
Proof. induction l as [|[k v] l IH]; cbn; done. Qed.

Lemma DeleteExpired_eq w :
  DeleteExpired w =
  let t := UnixNano (now w) in
  Ret tt (mkWorld
    (mkCache (defaultExpiration (store w))
       (filter (λ kv, ¬ dead t kv) (items (store w)))
       (onEvicted (store w)))
    (clock w) (S (reads w))
    (trace w ++ [EvLock; EvUnlock] ++
       match onEvicted (store w) with
       | Some f => (λ kv, EvCall f kv.1 kv.2) <$>
                     (evicted_pair <$> filter (dead t) (map_to_list (items (store w))))
       | None => []
       end)).
Proof.
  unfold DeleteExpired, mu_Lock, mu_Unlock, emit, time_Now, self.
  unfold mbind, M_bind; cbn.
  rewrite expire_range_eq; cbn.
  - rewrite delete_keys_filter.
    destruct (onEvicted (store w)) as [f|] eqn:Hf; cbn.
    + rewrite (evict_range_eq _ _ f) by done. cbn.
      rewrite ?Hf, <- !app_assoc. done.
    + rewrite ?Hf, <- ?app_assoc. done.
  - apply NoDup_fst_map_to_list.
  - intros k it Hin. by apply elem_of_map_to_list.
Qed.

Lemma map_to_list_filter_perm (P : string * Item V → Prop)
    `{!∀ kv, Decision (P kv)} m :
  map_to_list (filter P m) ≡ₚ filter P (map_to_list m).
Proof.
  rewrite map_filter_alt. apply map_to_list_to_map.
  eapply sublist_NoDup; [apply (NoDup_fst_map_to_list m)|].
  apply fmap_sublist, sublist_filter.
Qed.

Lemma size_filter_complement (P : string * Item V → Prop)
    `{!∀ kv, Decision (P kv)} m :
  size (filter (λ kv, ¬ P kv) m) = (size m - size (filter P m))%nat.
Proof.
  rewrite <- (map_filter_union_complement P m) at 2.
  rewrite map_size_disj_union by apply map_disjoint_filter_complement. lia.
Qed.

(** The hook calls of [DeleteExpired] all come after the mutex has been
    released. *)
Lemma DeleteExpired_calls_unguarded w :
  calls_unguarded false (emitted w (DeleteExpired w)) = true.
Proof.
  unfold emitted. rewrite DeleteExpired_eq; cbn. rewrite drop_app_length; cbn.
  destruct (onEvicted (store w)); [apply calls_unguarded_hook_events | done].
Qed.

(** C4. With a hook installed, [DeleteExpired] returns; it removes from the
    map exactly the entries that have a deadline (a positive stamp) which the
    clock reading is past, and keeps all others, the ones stamped 0 among
    them; the hook is called once for each removed entry, with its key and
    payload, and for nothing else; a later [Get] of a removed key returns
    [nil] and [false]; and [ItemCount] is smaller by the number of removed
    entries. *)
Theorem DeleteExpired_spec w f :
  onEvicted (store w) = Some f →
  let t := UnixNano (now w) in
  let o := DeleteExpired w in
  returns o = true ∧
  items (store (final o)) = filter (λ kv, ¬ dead t kv) (items (store w)) ∧
  (∀ k it, items (store (final o)) !! k = Some it ↔
           items (store w) !! k = Some it ∧ ¬ dead t (k, it)) ∧
  calls (emitted w o) ≡ₚ
    evicted_pair <$> map_to_list (filter (dead t) (items (store w))) ∧
  NoDup (calls (emitted w o)).*1 ∧
  (∀ k it, items (store w) !! k = Some it → dead t (k, it) →
     ∀ w2, store w2 = store (final o) → value (Get k w2) = Some (None, false)) ∧
  value (ItemCount (final o)) =
    Some (size (items (store w)) - size (filter (dead t) (items (store w))))%nat.
Proof.
  intros Hf t o.
  assert (Hcalls : calls (emitted w o) ≡ₚ
            evicted_pair <$> map_to_list (filter (dead t) (items (store w)))).
  { unfold o, emitted. rewrite DeleteExpired_eq; cbn.
    rewrite drop_app_length, Hf; cbn. rewrite calls_hook_events.
    fold t. by rewrite map_to_list_filter_perm. }
  assert (Hitems : items (store (final o)) =
            filter (λ kv, ¬ dead t kv) (items (store w))).
  { unfold o. rewrite DeleteExpired_eq. done. }
  split; [unfold o; by rewrite DeleteExpired_eq|].
  split; [done|]. split; [|split; [done|split; [|split]]].
  - intros k it. rewrite Hitems. apply map_lookup_filter_Some.
  - rewrite Hcalls. rewrite <- list_fmap_compose.
    apply (NoDup_fst_map_to_list (filter (dead t) (items (store w)))).
  - intros k it Hk Hd w2 Hst. rewrite Get_value, Hst, Hitems.
    replace (filter (λ kv, ¬ dead t kv) (items (store w)) !! k)
      with (@None (Item V)); [done|].
    symmetry. apply map_lookup_filter_None. right.
    intros it' Hk' Hlive. apply Hlive. congruence.
  - rewrite ItemCount_value, Hitems. f_equal.
    apply (size_filter_complement (dead t)).
Qed.

Lemma lookup_items_range t (l : list (string * Item V)) m k it :
  NoDup l.*1 →
  items_range t l m !! k = Some it ↔
  ((k, it) ∈ l ∧ ¬ dead t (k, it)) ∨
  ((∀ it', (k, it') ∈ l → dead t (k, it')) ∧ m !! k = Some it).
Proof.
  revert m. induction l as [|[k0 it0] l IH]; intros m Hnd; cbn.
  - split.
    + intros Hm. right. split; [|done]. intros it' Hin. by apply elem_of_nil in Hin.
    + intros [[Hin _]|[_ Hm]]; [by apply elem_of_nil in Hin | done].
  - apply NoDup_cons in Hnd as [Hk0 Hnd].
    assert (Hfresh : ∀ it', (k0, it') ∉ l).
    { intros it' Hin. apply Hk0. apply list_elem_of_fmap. by exists (k0, it'). }
    destruct (decide (Expiration it0 > 0 ∧ t > Expiration it0)) as [Hd|Hd].
    + rewrite IH by done. setoid_rewrite elem_of_cons. split.
      * intros [[Hin Hl]|[Hall Hm]]; [left; tauto|]. right. split; [|done].
        intros it' [[= -> ->]|Hin]; [done | by apply Hall].
      * intros [[[[= -> ->]|Hin] Hl]|[Hall Hm]]; [done | left; tauto |].
        right. split; [|done]. intros it' Hin. apply Hall. by right.
    + rewrite IH by done. setoid_rewrite elem_of_cons.
      destruct (decide (k = k0)) as [->|Hne].
      * rewrite lookup_insert_eq. split.
        -- intros [[Hin _]|[_ [= ->]]]; [by apply Hfresh in Hin|].
           left. split; [by left | done].
        -- intros [[[[= ->]|Hin] Hl]|[Hall Hm]].
           ++ right. split; [|done]. intros it' Hin. by apply Hfresh in Hin.
           ++ by apply Hfresh in Hin.
           ++ exfalso. apply Hd. apply (Hall it0). by left.
      * rewrite lookup_insert_ne by done. split.
        -- intros [[Hin Hl]|[Hall Hm]]; [left; tauto|]. right. split; [|done].
           intros it' [[= -> ->]|Hin]; [done | by apply Hall].
        -- intros [[[[= -> ->]|Hin] Hl]|[Hall Hm]]; [done | left; tauto |].
           right. split; [|done]. intros it' Hin. apply Hall. by right.
Qed.

(** [Items] returns the entries that are not past a deadline. *)
Lemma Items_value w :
  value (Items w) =
  Some (filter (λ kv, ¬ dead (UnixNano (now w)) kv) (items (store w))).
Proof.
  run. f_equal. apply map_eq; intros k. apply option_eq; intros it.
  rewrite lookup_items_range by apply NoDup_fst_map_to_list.
  rewrite map_lookup_filter_Some, lookup_empty, elem_of_map_to_list.
  split; [intros [?|[_ [=]]]; done | intros ?; by left].
Qed.

Lemma Items_store w : store (final (Items w)) = store w.
Proof. done. Qed.

(** C10. [Set] with any negative duration stores the entry with stamp 0;
    and wherever an entry with stamp 0 is stored, at every reading of the
    clock [Get] and [GetWithExpiration] return its value (the latter with the
    zero [Time]), [Items] lists it, and [DeleteExpired] leaves it in the
    map. *)
Theorem Set_negative_never_expires w k x d :
  d < 0 →
  items (store (final (Set_ k x d w))) !! k = Some (mkItem x 0) ∧
  ∀ w2, items (store w2) !! k = Some (mkItem x 0) →
    value (Get k w2) = Some (x, true) ∧
    value (GetWithExpiration k w2) = Some (x, time_zero, true) ∧
    (value (Items w2) ≫= λ m', m' !! k) = Some (mkItem x 0) ∧
    items (store (final (DeleteExpired w2))) !! k = Some (mkItem x 0).
Proof.
  intros Hd. split.
  - rewrite Set_value; cbn. rewrite (decide_False (P := d = 0)) by lia.
    rewrite (decide_False (P := d > 0)) by lia. apply lookup_insert_eq.
  - intros w2 Hk.
    assert (Hlive : ∀ t, ¬ dead t (k, mkItem x 0)).
    { intros t [Hpos _]; cbn in Hpos. lia. }
    split; [|split; [|split]].
    + rewrite Get_value, Hk. rewrite decide_False by apply Hlive. done.
    + rewrite GetWithExpiration_value, Hk; cbn. done.
    + rewrite Items_value; cbn. apply map_lookup_filter_Some. split; [done|].
      apply Hlive.
    + rewrite DeleteExpired_eq; cbn. apply map_lookup_filter_Some.
      split; [done|]. apply Hlive.
Qed.

(** No call changes the default duration of the store. *)
Lemma exec_defaultExpiration (c : call (V:=V) (Hook:=Hook)) w :
  defaultExpiration (store (exec c w)) = defaultExpiration (store w).
Proof.
  destruct c; cbn [exec].
  - by rewrite Set_value.
  - unfold SetDefault. by rewrite Set_value.
  - run. destruct (items (store w) !! k); cbn; repeat (case_decide; cbn); done.
  - run. destruct (items (store w) !! k); cbn; repeat (case_decide; cbn); done.
  - by rewrite Get_store.
  - run. destruct (items (store w) !! k); cbn; repeat (case_decide; cbn); done.
  - by rewrite Delete_eq.
  - by rewrite DeleteExpired_eq.
  - done.
  - done.
  - done.
  - done.
Qed.

Lemma exec_all_defaultExpiration (cs : list (call (V:=V) (Hook:=Hook))) w :
  defaultExpiration (store (exec_all cs w)) = defaultExpiration (store w).
Proof.
  revert w. induction cs as [|c cs IH]; intros w; [done|].
  unfold exec_all in *; cbn. by rewrite IH, exec_defaultExpiration.
Qed.

(** C9. A store built with default duration 0 gets the default -1, the
    never-expire sentinel, and keeps it through every sequence of calls; so
    every write with the "use the default" duration, through [Set],
    [SetDefault] or the unexported [set] of [Add] and [Replace], stores the
    entry with stamp 0, and [Get] returns it at every later reading of the
    clock. *)
Theorem zero_default_is_never m ci cl r tr cs k x :
  let w := exec_all cs (mkWorld (NewFrom (Hook:=Hook) 0 ci m) cl r tr) in
  New (V:=V) (Hook:=Hook) 0 ci = newCache 0 ∅ ∧
  NewFrom (Hook:=Hook) 0 ci m = newCache 0 m ∧
  defaultExpiration (newCache (Hook:=Hook) 0 m) = NoExpiration ∧
  defaultExpiration (store w) = NoExpiration ∧
  items (store (final (Set_ k x DefaultExpiration w))) !! k = Some (mkItem x 0) ∧
  items (store (final (SetDefault k x w))) !! k = Some (mkItem x 0) ∧
  items (store (final (set k x DefaultExpiration w))) !! k = Some (mkItem x 0) ∧
  ∀ cl' r' tr',
    value (Get k (mkWorld (store (final (SetDefault k x w))) cl' r' tr')) =
    Some (x, true).
Proof.
  intros w.
  assert (Hde : defaultExpiration (store w) = -1).
  { unfold w. by rewrite exec_all_defaultExpiration. }
  assert (HSet : items (store (final (Set_ k x DefaultExpiration w))) !! k =
                 Some (mkItem x 0)).
  { rewrite Set_value; cbn. rewrite Hde; cbn. apply lookup_insert_eq. }
  repeat split; try done.
  - rewrite set_eq; cbn. rewrite Hde; cbn. apply lookup_insert_eq.
  - intros cl' r' tr'. rewrite Get_value; cbn. unfold SetDefault.
    rewrite HSet. rewrite decide_False; [done|].
    intros [Hpos _]; cbn in Hpos. lia.
Qed.

(** On stamps that are not negative, the inline test of the read paths is
    the method [Item.Expired]. *)
Lemma Expired_dead t k it :
  0 <= Expiration it → Expired t it = bool_decide (dead t (k, it)).
Proof.
  intros Hpos. unfold Expired, dead; cbn.
  destruct (decide (Expiration it = 0)) as [Hz|Hz].
  - rewrite bool_decide_eq_false_2; [done | lia].
  - apply bool_decide_ext. lia.
Qed.

(** An entry written by [Add] with a positive duration is past its deadline
    as soon as the clock has moved: a second [Add] on the key succeeds and
    overwrites it, whatever the duration was. *)
Lemma Add_entry_dead_at_next_reading w k x1 x2 d :
  d > 0 →
  items (store w) !! k = None →
  0 < now w → int64 (now w) →
  int64 (clock w (S (reads w))) →
  now w < clock w (S (reads w)) →
  value (Add k x1 d w) = Some None ∧
  value (Add k x2 d (final (Add k x1 d w))) = Some None ∧
  Object <$> items (store (final (Add k x2 d (final (Add k x1 d w))))) !! k =
    Some x2.
Proof.
  intros Hd Hk Hpos Hnow Hnext Htick. unfold UnixNano, now in *.
  run. rewrite Hk; cbn.
  rewrite (decide_False (P := d = 0)) by lia.
  rewrite (decide_True (P := d > 0)) by lia. cbn.
  rewrite lookup_insert_eq; cbn. unfold UnixNano.
  rewrite !wrap64_int64 by done.
  rewrite (decide_True (P := clock w (reads w) > 0)) by lia. cbn.
  rewrite (wrap64_int64 (clock w (S (reads w)))) by done.
  rewrite (decide_True (P := clock w (S (reads w)) > clock w (reads w))) by lia.
  cbn. rewrite (decide_False (P := d = 0)) by lia.
  rewrite (decide_True (P := d > 0)) by lia. cbn.
  rewrite lookup_insert_eq. done.
Qed.

(** ** Further properties of the package *)

Lemma held_after_hook_events (f : Hook) (l : list (string * iface V)) b :
  held_after b ((λ kv, EvCall f kv.1 kv.2) <$> l) = b.
Proof. induction l as [|[k v] l IH]; cbn; done. Qed.

(** What a call adds to the trace: it ends with the mutex released, and
    only [Delete] and [DeleteExpired] have hook calls in it. *)
Lemma exec_events (c : call (V:=V) (Hook:=Hook)) w :
  ∃ evs, trace (exec c w) = trace w ++ evs ∧
         held_after false evs = false ∧
         match c with
         | CallDelete _ | CallDeleteExpired => True
         | _ => calls evs = []
         end.
Proof.
  destruct c; cbn [exec].
  - rewrite Set_value; cbn. by eexists.
  - unfold SetDefault. rewrite Set_value; cbn. by eexists.
  - run. destruct (items (store w) !! k); cbn; repeat (case_decide; cbn);
      rewrite <- app_assoc; by eexists.
  - run. destruct (items (store w) !! k); cbn; repeat (case_decide; cbn);
      rewrite <- app_assoc; by eexists.
  - run. destruct (items (store w) !! k); cbn; repeat (case_decide; cbn);
      rewrite <- app_assoc; by eexists.
  - run. destruct (items (store w) !! k); cbn; repeat (case_decide; cbn);
      rewrite <- app_assoc; by eexists.
  - rewrite Delete_eq; cbn. eexists. split; [done|].
    destruct (onEvicted (store w)), (items (store w) !! k); done.
  - rewrite DeleteExpired_eq; cbn. eexists. split; [done|]. cbn.
    destruct (onEvicted (store w)); [by rewrite held_after_hook_events | done].
  - run. rewrite <- app_assoc. by eexists.
  - run. rewrite <- app_assoc. by eexists.
  - run. rewrite <- app_assoc. by eexists.
  - run. rewrite <- app_assoc. by eexists.
Qed.

(** X1. Whatever sequence of calls a client makes, starting with the mutex
    free, the mutex is free again when the last call has returned: no method
    of the package returns with the mutex held. *)
Theorem exec_all_releases_mutex (cs : list (call (V:=V) (Hook:=Hook))) w :
  held_after false (emitted w (Ret tt (exec_all cs w))) = false.
Proof.
  unfold emitted; cbn.
  assert (H : ∃ evs, trace (exec_all cs w) = trace w ++ evs ∧
                     held_after false evs = false).
  { revert w. induction cs as [|c cs IH]; intros w.
    - exists []. by rewrite app_nil_r.
    - unfold exec_all in *; cbn.
      destruct (IH (exec c w)) as (evs2 & -> & H2).
      destruct (exec_events c w) as (evs1 & -> & H1 & _).
      exists (evs1 ++ evs2). rewrite app_assoc. split; [done|].
      clear -H1 H2. revert H1. generalize false at 1 3.
      induction evs1 as [|[] evs1 IHe]; intros b Hb; cbn in *; auto.
      by subst b. }
  destruct H as (evs & -> & Hfree). by rewrite drop_app_length.
Qed.

(** X2. The hook is called by [Delete] and [DeleteExpired] only: a sequence
    of any other calls, overwriting [Set]s, [Replace]s and [Flush]es among
    them, never calls it. *)
Theorem only_deletes_call_hook (cs : list (call (V:=V) (Hook:=Hook))) w :
  Forall (λ c, match c with
               | CallDelete _ | CallDeleteExpired => False
               | _ => True
               end) cs →
  calls (emitted w (Ret tt (exec_all cs w))) = [].
Proof.
  unfold emitted; cbn. intros Hcs.
  assert (H : ∃ evs, trace (exec_all cs w) = trace w ++ evs ∧ calls evs = []).
  { revert w. induction Hcs as [|c cs Hc Hcs IH]; intros w.
    - exists []. by rewrite app_nil_r.
    - unfold exec_all in *; cbn.
      destruct (IH (exec c w)) as (evs2 & -> & H2).
      destruct (exec_events c w) as (evs1 & -> & _ & H1).
      exists (evs1 ++ evs2). rewrite app_assoc. split; [done|].
      assert (Hc1 : calls evs1 = []) by (destruct c; done).
      clear -Hc1 H2. induction evs1 as [|[] evs1 IHe]; cbn in *; auto.
      done. }
  destruct H as (evs & -> & Hno). by rewrite drop_app_length.
Qed.

Lemma exec_items_subseteq (c : call (V:=V) (Hook:=Hook)) w :
  match c with
  | CallSet _ _ _ | CallSetDefault _ _ | CallAdd _ _ _ | CallReplace _ _ _ =>
      True
  | _ => items (store (exec c w)) ⊆ items (store w)
  end.
Proof.
  destruct c; cbn [exec]; try done.
  - by rewrite Get_store.
  - run. destruct (items (store w) !! k); cbn; repeat (case_decide; cbn); done.
  - rewrite Delete_eq; cbn. apply delete_subseteq.
  - rewrite DeleteExpired_eq; cbn. apply map_filter_subseteq.
  - cbn. apply map_empty_subseteq.
Qed.

(** X3. Entries come into the map through [Set], [SetDefault], [Add] and
    [Replace] only: after any sequence of the other calls, every entry of
    the map was there before, with the same payload and stamp. *)
Theorem only_writes_add_entries (cs : list (call (V:=V) (Hook:=Hook))) w :
  Forall (λ c, match c with
               | CallSet _ _ _ | CallSetDefault _ _
               | CallAdd _ _ _ | CallReplace _ _ _ => False
               | _ => True
               end) cs →
  items (store (exec_all cs w)) ⊆ items (store w).
Proof.
  intros Hcs. revert w. induction Hcs as [|c cs Hc Hcs IH]; intros w; [done|].
  unfold exec_all in *; cbn. etrans; [apply IH|].
  pose proof (exec_items_subseteq c w) as Hsub. destruct c; done.
Qed.

Lemma exec_onEvicted (c : call (V:=V) (Hook:=Hook)) w :
  onEvicted (store (exec c w)) =
  match c with CallOnEvicted f => f | _ => onEvicted (store w) end.
Proof.
  destruct c; cbn [exec]; try done.
  - by rewrite Set_value.
  - unfold SetDefault. by rewrite Set_value.
  - run. destruct (items (store w) !! k); cbn; repeat (case_decide; cbn); done.
  - run. destruct (items (store w) !! k); cbn; repeat (case_decide; cbn); done.
  - by rewrite Get_store.
  - run. destruct (items (store w) !! k); cbn; repeat (case_decide; cbn); done.
  - by rewrite Delete_eq.
  - by rewrite DeleteExpired_eq.
Qed.

(** X4. The installed hook is the one of the last [OnEvicted] call: a
    sequence of calls that ends with [OnEvicted f] followed by calls other
    than [OnEvicted] leaves [f] installed, whatever was installed before and
    whatever those calls delete or flush. *)
Theorem last_OnEvicted_wins (cs1 cs2 : list (call (V:=V) (Hook:=Hook))) f w :
  Forall (λ c, match c with CallOnEvicted _ => False | _ => True end) cs2 →
  onEvicted (store (exec_all (cs1 ++ CallOnEvicted f :: cs2) w)) = f.
Proof.
  intros Hcs. unfold exec_all. rewrite foldl_app; cbn.
  generalize (foldl (λ w c, exec c w) w cs1). clear w cs1. intros w.
  assert (H : ∀ w', onEvicted (store (foldl (λ w c, exec c w) w' cs2)) =
                    onEvicted (store w')).
  { induction Hcs as [|c cs Hc Hcs IH]; intros w'; [done|]. cbn.
    rewrite IH, exec_onEvicted. destruct c; done. }
  by rewrite H.
Qed.

(** X5. [SetDefault] on a store whose default duration [de] is positive
    gives the entry the deadline of write time plus [de]: a [Get] at a
    reading up to that deadline returns the value, one past it returns [nil]
    and [false]. *)
Theorem SetDefault_then_Get w k x :
  0 < defaultExpiration (store w) → int64 (defaultExpiration (store w)) →
  0 <= now w → int64 (now w) →
  ∀ w2, store w2 = store (final (SetDefault k x w)) → int64 (now w2) →
    (now w2 <= now w + defaultExpiration (store w) →
     value (Get k w2) = Some (x, true)) ∧
    (now w + defaultExpiration (store w) < now w2 →
     value (Get k w2) = Some (None, false)).
Proof.
  intros Hd Hd64 Hnow Hnow64 w2 Hst Hw2.
  unfold SetDefault, DefaultExpiration in Hst.
  rewrite Set_value in Hst; cbn in Hst.
  rewrite !(decide_True (P := 0 = 0)) in Hst by done.
  rewrite (decide_True (P := defaultExpiration (store w) > 0)) in Hst by lia.
  rewrite Get_value, Hst; cbn. rewrite lookup_insert_eq.
  unfold UnixNano, dead, int64 in *; cbn.
  rewrite (wrap64_int64 (now w2)) by done.
  set (de := defaultExpiration (store w)) in *.
  destruct (decide (now w + de < 2 ^ 63)) as [Hsmall|Hbig].
  - rewrite (wrap64_int64 (now w + de)) by (unfold int64; lia).
    split; intros Hcmp.
    + rewrite decide_False; [done | lia].
    + rewrite decide_True; [done | lia].
  - rewrite (wrap64_overflow (now w + de)) by lia.
    split; intros Hcmp.
    + rewrite decide_False; [done | lia].
    + lia.
Qed.

(** X6. A [Set] whose deadline, write time plus duration, no longer fits
    [int64] stores a negative stamp, and the entry then never expires: [Get]
    returns the value at every reading of the clock. *)
Theorem Set_overflow_never_expires w k x d :
  0 < d → int64 d → int64 (now w) → 2 ^ 63 <= now w + d →
  items (store (final (Set_ k x d w))) !! k =
    Some (mkItem x (now w + d - 2 ^ 64)) ∧
  now w + d - 2 ^ 64 < 0 ∧
  ∀ w2, store w2 = store (final (Set_ k x d w)) →
    value (Get k w2) = Some (x, true).
Proof.
  intros Hd Hd64 Hnow Hbig. unfold int64 in *.
  assert (Hst : items (store (final (Set_ k x d w))) !! k =
                Some (mkItem x (now w + d - 2 ^ 64))).
  { rewrite Set_value; cbn. rewrite (decide_False (P := d = 0)) by lia.
    rewrite (decide_True (P := d > 0)) by lia. rewrite lookup_insert_eq.
    unfold UnixNano. rewrite wrap64_overflow by lia. done. }
  split; [done|]. split; [lia|]. intros w2 Hw2.
  rewrite Get_value, Hw2, Hst. rewrite decide_False; [done|].
  intros [Hpos _]; cbn in Hpos. lia.
Qed.

(** X7. After a [Set] with a positive duration whose deadline fits [int64],
    [GetWithExpiration] at a reading up to the deadline returns the value
    together with the deadline, write time plus duration, as a [Time]. *)
Theorem Set_then_GetWithExpiration w k x d :
  0 < d → 0 <= now w → now w + d < 2 ^ 63 →
  ∀ w2, store w2 = store (final (Set_ k x d w)) → int64 (now w2) →
    now w2 <= now w + d →
    value (GetWithExpiration k w2) = Some (x, now w + d, true).
Proof.
  intros Hd Hnow Hfit w2 Hst Hw2 Hle.
  rewrite Set_value in Hst; cbn in Hst.
  rewrite (decide_False (P := d = 0)) in Hst by lia.
  rewrite (decide_True (P := d > 0)) in Hst by lia.
  rewrite GetWithExpiration_value, Hst; cbn. rewrite lookup_insert_eq; cbn.
  unfold UnixNano, time_Unix.
  rewrite (wrap64_int64 (now w + d)) by (unfold int64; lia).
  rewrite (wrap64_int64 (now w2)) by done.
  rewrite decide_True by lia. rewrite decide_False by lia.
  do 3 f_equal.
Qed.

Lemma Add_no_live w k x d :
  (items (store w) !! k = None ∨
   ∃ it, items (store w) !! k = Some it ∧ dead (UnixNano (now w)) (k, it)) →
  value (Add k x d w) = Some None ∧
  ∃ e, items (store (final (Add k x d w))) = <[k:=mkItem x e]> (items (store w)).
Proof.
  unfold dead; run. intros [Hk|(it & Hk & Hpos & Hpast)]; rewrite Hk; cbn.
  - repeat (case_decide; cbn); (split; [done | by eexists]).
  - rewrite decide_True by done; cbn. rewrite decide_True by done; cbn.
    repeat (case_decide; cbn); (split; [done | by eexists]).
Qed.

(** X8. [Add] succeeds exactly when the key is absent or its entry is past
    its deadline at the reading of the clock.  When it succeeds, the key
    holds the new value and every other key is as before; when it fails, it
    fails with the "already exists" error and the store is as before. *)
Theorem Add_succeeds_iff_no_live_entry w k x d :
  let free := items (store w) !! k = None ∨
              ∃ it, items (store w) !! k = Some it ∧
                    dead (UnixNano (now w)) (k, it) in
  (value (Add k x d w) = Some None ↔ free) ∧
  (value (Add k x d w) = Some (Some (KeyExists k)) ↔ ¬ free) ∧
  (free →
   Object <$> items (store (final (Add k x d w))) !! k = Some x ∧
   base.delete k (items (store (final (Add k x d w)))) =
     base.delete k (items (store w))) ∧
  (¬ free → store (final (Add k x d w)) = store w).
Proof.
  intros free.
  assert (Hcase : free ∨ ∃ it, items (store w) !! k = Some it ∧
                               ¬ dead (UnixNano (now w)) (k, it)).
  { unfold free. destruct (items (store w) !! k) as [it|]; [|by left; left].
    destruct (decide (dead (UnixNano (now w)) (k, it))).
    - left. right. by exists it.
    - right. by exists it. }
  assert (Hexcl : free → ∀ it, items (store w) !! k = Some it →
                   ¬ dead (UnixNano (now w)) (k, it) → False).
  { intros [Hk|(it' & Hk & Hd)] it Hit Hlive; congruence. }
  destruct Hcase as [Hfree|(it & Hk & Hlive)].
  - destruct (Add_no_live w k x d Hfree) as (Hv & e & Hitems).
    rewrite Hv, Hitems, lookup_insert_eq, delete_insert_eq.
    split; [done|]. split; [|split; [done|]].
    + split; [done | intros Hn; by destruct Hn].
    + intros Hn. by destruct Hn.
  - destruct (Add_live w k x d it Hk Hlive) as [Hv Hst]. rewrite Hv, Hst.
    assert (Hnfree : ¬ free) by (intros Hfree; by eapply Hexcl).
    split; [split; [done | intros Hfree; by destruct Hnfree]|].
    split; [done|]. split; [intros Hfree; by destruct Hnfree | done].
Qed.

Lemma Replace_live w k x d it :
  items (store w) !! k = Some it → ¬ dead (UnixNano (now w)) (k, it) →
  value (Replace k x d w) = Some None ∧
  ∃ e, items (store (final (Replace k x d w))) =
       <[k:=mkItem x e]> (items (store w)).
Proof.
  unfold dead; run. intros Hk Hlive. rewrite Hk; cbn.
  repeat (case_decide; cbn); try tauto; (split; [done | by eexists]).
Qed.

(** X9. [Replace] on a key whose entry is live succeeds: afterwards the key
    holds the new value, every other key is as before, and the number of
    entries has not changed. *)
Theorem Replace_live_entry w k x d it :
  items (store w) !! k = Some it → ¬ dead (UnixNano (now w)) (k, it) →
  value (Replace k x d w) = Some None ∧
  Object <$> items (store (final (Replace k x d w))) !! k = Some x ∧
  base.delete k (items (store (final (Replace k x d w)))) =
    base.delete k (items (store w)) ∧
  value (ItemCount (final (Replace k x d w))) = value (ItemCount w).
Proof.
  intros Hk Hlive. destruct (Replace_live w k x d it Hk Hlive) as (Hv & e & Hit).
  rewrite !ItemCount_value, Hv, Hit, lookup_insert_eq, delete_insert_eq.
  rewrite map_size_insert_Some by (by exists it). done.
Qed.

(** X10. [Get] does not reap: on a key whose entry is past its deadline it
    returns [nil] and [false], but the entry stays in the map and
    [ItemCount] goes on counting it. *)
Theorem Get_does_not_reap w k it :
  items (store w) !! k = Some it → dead (UnixNano (now w)) (k, it) →
  value (Get k w) = Some (None, false) ∧
  items (store (final (Get k w))) !! k = Some it ∧
  value (ItemCount (final (Get k w))) = Some (size (items (store w))) ∧
  size (items (store w)) ≠ 0%nat.
Proof.
  intros Hk Hd. rewrite Get_value, ItemCount_value, Get_store, Hk.
  rewrite decide_True by done. repeat split; try done.
  apply (map_size_ne_0_lookup_2 _ k). by exists it.
Qed.

(** X11. [Items] is a snapshot taken with the test of [Get]: it leaves the
    store as it was, the map it returns is part of the stored one, and at
    the same reading of the clock [Get] finds a key exactly when the snapshot
    has it, with the same payload. *)
Theorem Items_agrees_with_Get w k :
  store (final (Items w)) = store w ∧
  ∃ m', value (Items w) = Some m' ∧
        m' ⊆ items (store w) ∧
        value (Get k w) =
          Some match m' !! k with
               | Some it => (Object it, true)
               | None => (None, false)
               end.
Proof.
  split; [done|]. eexists. split; [apply Items_value|].
  split; [apply map_filter_subseteq|]. rewrite Get_value. f_equal.
  destruct (items (store w) !! k) as [it|] eqn:Hk.
  - destruct (decide (dead (UnixNano (now w)) (k, it))) as [Hd|Hd].
    + replace (filter _ _ !! k) with (@None (Item V)); [done|].
      symmetry. apply map_lookup_filter_None. right.
      intros it' Hk' Hl. apply Hl. congruence.
    + replace (filter _ _ !! k) with (Some it); [done|].
      symmetry. by apply map_lookup_filter_Some.
  - replace (filter _ _ !! k) with (@None (Item V)); [done|].
    symmetry. apply map_lookup_filter_None. by left.
Qed.

Lemma objects_range_fmap t (l : list (string * Item V)) m :
  objects_range t l (Object <$> m) = Object <$> items_range t l m.
Proof.
  revert m. induction l as [|[k it] l IH]; intros m; cbn; [done|].
  case_decide; [apply IH|]. rewrite <- IH. by rewrite fmap_insert.
Qed.

(** X12. [Objects] returns the payloads of the entries that [Items]
    returns, under the same keys, and leaves the store as it was. *)
Theorem Objects_are_Items_payloads w :
  value (Objects w) =
    (λ m' : gmap string (Item V), Object <$> m') <$> value (Items w) ∧
  store (final (Objects w)) = store w.
Proof.
  split; [|done]. run. f_equal.
  rewrite <- objects_range_fmap. by rewrite fmap_empty.
Qed.

(** X13. A sweep leaves in the map exactly the snapshot that [Items]
    returns at the same reading of the clock. *)
Theorem DeleteExpired_leaves_Items w :
  value (Items w) = Some (items (store (final (DeleteExpired w)))).
Proof. rewrite Items_value, DeleteExpired_eq. done. Qed.

(** X14. With no hook installed, [DeleteExpired] still returns and removes
    the entries past their deadline, and does nothing but take and release
    the mutex. *)
Theorem DeleteExpired_without_hook w :
  onEvicted (store w) = None →
  returns (DeleteExpired w) = true ∧
  items (store (final (DeleteExpired w))) =
    filter (λ kv, ¬ dead (UnixNano (now w)) kv) (items (store w)) ∧
  emitted w (DeleteExpired w) = [EvLock; EvUnlock].
Proof.
  intros Hf. unfold emitted. rewrite DeleteExpired_eq; cbn.
  rewrite drop_app_length, Hf. done.
Qed.

(** X15. Two sweeps, the second at a reading that is not earlier, leave what
    one sweep at the second reading leaves; and a second sweep at the same
    reading removes nothing and calls no hook. *)
Theorem DeleteExpired_twice w w2 :
  store w2 = store (final (DeleteExpired w)) →
  UnixNano (now w) <= UnixNano (now w2) →
  items (store (final (DeleteExpired w2))) =
    filter (λ kv, ¬ dead (UnixNano (now w2)) kv) (items (store w)) ∧
  (UnixNano (now w2) = UnixNano (now w) →
   items (store (final (DeleteExpired w2))) = items (store w2) ∧
   calls (emitted w2 (DeleteExpired w2)) = []).
Proof.
  intros Hst Hle. rewrite DeleteExpired_eq in Hst; cbn in Hst.
  unfold emitted. rewrite DeleteExpired_eq; cbn. rewrite drop_app_length, Hst; cbn.
  unfold now in *.
  set (t1 := UnixNano (clock w (reads w))) in *.
  set (t2 := UnixNano (clock w2 (reads w2))) in *.
  split.
  - apply map_eq; intros k. apply option_eq; intros it.
    rewrite !map_lookup_filter_Some. unfold dead; cbn. split.
    + tauto.
    + intros [Hk Hl]. repeat split; try done. intros [Hpos Hpast].
      apply Hl. split; [done | lia].
  - intros Heq. rewrite Heq.
    assert (Hnone : filter (dead t1)
              (map_to_list (filter (λ kv, ¬ dead t1 kv) (items (store w)))) = []).
    { apply Permutation_nil_r. rewrite <- map_to_list_filter_perm.
      apply Permutation_nil_r, map_to_list_empty_iff.
      apply map_eq; intros k. rewrite lookup_empty.
      apply map_lookup_filter_None. right. intros it Hk Hd.
      apply map_lookup_filter_Some in Hk as [_ Hl]. by apply Hl. }
    split.
    + apply map_eq; intros k. apply option_eq; intros it.
      rewrite !map_lookup_filter_Some. tauto.
    + rewrite Hnone. by destruct (onEvicted (store w)).
Qed.

(** X16. [Delete] is idempotent: after a [Delete] of a key, [Get] does not
    find it, and a second [Delete] of it leaves the store as it is and calls
    no hook. *)
Theorem Delete_twice w k :
  value (Get k (final (Delete k w))) = Some (None, false) ∧
  store (final (Delete k (final (Delete k w)))) = store (final (Delete k w)) ∧
  calls (emitted (final (Delete k w)) (Delete k (final (Delete k w)))) = [].
Proof.
  rewrite Get_value. unfold emitted. rewrite !Delete_eq; cbn.
  rewrite lookup_delete_eq, delete_delete_eq, drop_app_length.
  repeat split. by destruct (onEvicted (store w)).
Qed.

(** X17. [Set] on a key the map does not hold, followed by [Delete] of the
    key, gives back the map as it was; the hook, when one is installed, is
    called once, with the key and the value just set. *)
Theorem Set_then_Delete w k x d :
  items (store w) !! k = None →
  items (store (final (Delete k (final (Set_ k x d w))))) = items (store w) ∧
  calls (emitted (final (Set_ k x d w)) (Delete k (final (Set_ k x d w)))) =
    match onEvicted (store w) with Some _ => [(k, x)] | None => [] end.
Proof.
  intros Hk. unfold emitted. rewrite Delete_eq, Set_value; cbn.
  rewrite drop_app_length, lookup_insert_eq, delete_insert_eq.
  split; [by apply delete_id|]. by destruct (onEvicted (store w)).
Qed.

Lemma OnEvicted_eq w f :
  OnEvicted f w =
  Ret tt (mkWorld
    (mkCache (defaultExpiration (store w)) (items (store w)) f)
    (clock w) (reads w) (trace w ++ [EvLock; EvUnlock])).
Proof. run. by rewrite <- app_assoc. Qed.

(** X18. [OnEvicted] changes nothing but the hook and is not retroactive
    (it calls nothing).  A [Delete] of a present key after it calls the hook
    just installed, once, with the key and the stored value; after
    [OnEvicted(nil)] it calls nothing, and returns. *)
Theorem OnEvicted_then_Delete w f k it :
  items (store w) !! k = Some it →
  items (store (final (OnEvicted f w))) = items (store w) ∧
  defaultExpiration (store (final (OnEvicted f w))) =
    defaultExpiration (store w) ∧
  calls (emitted w (OnEvicted f w)) = [] ∧
  returns (Delete k (final (OnEvicted f w))) = true ∧
  emitted (final (OnEvicted f w)) (Delete k (final (OnEvicted f w))) =
    match f with
    | Some g => [EvLock; EvCall g k (Object it); EvUnlock]
    | None => [EvLock; EvUnlock]
    end.
Proof.
  intros Hk. unfold emitted. rewrite Delete_eq, OnEvicted_eq. cbn.
  rewrite !drop_app_length, Hk. by destruct f.
Qed.

(** X19. A store made by [New] is empty, whatever the two durations: [Get]
    finds no key, [ItemCount] is 0, [Items] is the empty map, [Replace]
    fails on every key with the "doesn't exist" error, [Add] succeeds on
    every key, and [Delete] returns without calling anything.  A default
    duration other than 0 is kept as given. *)
Theorem New_store_is_empty de ci cl r tr k x d :
  let w : world V Hook := mkWorld (New de ci) cl r tr in
  value (Get k w) = Some (None, false) ∧
  value (ItemCount w) = Some 0%nat ∧
  value (Items w) = Some ∅ ∧
  value (Replace k x d w) = Some (Some (KeyNotFound k)) ∧
  value (Add k x d w) = Some None ∧
  returns (Delete k w) = true ∧
  calls (emitted w (Delete k w)) = [] ∧
  defaultExpiration (store w) = (if decide (de = 0) then -1 else de).
Proof.
  intros w. rewrite Get_value, Items_value. unfold emitted.
  rewrite Delete_eq. cbn. rewrite lookup_empty, drop_app_length.
  rewrite map_filter_empty.
  assert (HAdd : value (Add k x d w) = Some None).
  { apply (Add_no_live w k x d). left. apply lookup_empty. }
  assert (HReplace : value (Replace k x d w) = Some (Some (KeyNotFound k))).
  { run. rewrite lookup_empty. done. }
  rewrite HAdd, HReplace. done.
Qed.

(** X20. On an entry whose stamp is not negative, [Get] finds the key
    exactly when the method [Expired] of the entry says it has not expired.
    On an entry with a negative stamp the two part: [Get] returns the value,
    while [Expired] reports the entry expired at every reading later than
    the stamp. *)
Theorem Get_and_Expired w k it :
  items (store w) !! k = Some it →
  (0 <= Expiration it →
   value (Get k w) =
     Some (if Expired (UnixNano (now w)) it then (None, false)
           else (Object it, true))) ∧
  (Expiration it < 0 →
   value (Get k w) = Some (Object it, true) ∧
   (UnixNano (now w) > Expiration it → Expired (UnixNano (now w)) it = true)).
Proof.
  intros Hk. rewrite Get_value, Hk. split.
  - intros Hpos. rewrite (Expired_dead _ k) by done.
    destruct (decide (dead (UnixNano (now w)) (k, it))) as [Hd|Hd].
    + by rewrite bool_decide_eq_true_2.
    + by rewrite bool_decide_eq_false_2.
  - intros Hneg. split.
    + rewrite decide_False; [done|]. intros [Hpos _]; cbn in Hpos. lia.
    + intros Hpast. unfold Expired. rewrite decide_False by lia.
      by apply bool_decide_eq_true_2.
Qed.

(** X21. [ItemCount] after a [Set]: one more than before when the map did
    not hold the key, and the same as before when it did, also when the
    entry it held was past its deadline. *)
Theorem ItemCount_after_Set w k x d :
  value (ItemCount (final (Set_ k x d w))) =
  Some match items (store w) !! k with
       | Some _ => size (items (store w))
       | None => S (size (items (store w)))
       end.
Proof.
  rewrite ItemCount_value, Set_value; cbn. rewrite map_size_insert.
  by destruct (items (store w) !! k).
Qed.

Lemma calls_unguarded_app (l1 l2 : list (event V Hook)) b :
  calls_unguarded b (l1 ++ l2) =
  calls_unguarded b l1 && calls_unguarded (held_after b l1) l2.
Proof.
  revert b. induction l1 as [|[] l1 IH]; intros b; cbn; try done.
  rewrite IH. by destruct b.
Qed.

Lemma held_after_app (l1 l2 : list (event V Hook)) b :
  held_after b (l1 ++ l2) = held_after (held_after b l1) l2.
Proof. revert b. induction l1 as [|[] l1 IH]; intros b; cbn; done. Qed.

Lemma janitor_Run_tick cases w :
  janitor_Run (TickerC :: cases) w = janitor_Run cases (final (DeleteExpired w)).
Proof.
  cbn [janitor_Run]. unfold mbind, M_bind. by rewrite DeleteExpired_eq.
Qed.


(** X23. Whatever ticks and stop signals it receives, [janitor.Run] does not
    panic; it adds or changes no entry and removes none whose stamp is not
    positive; it leaves the default duration and the hook alone; it ends
    with the mutex released, and every hook call it makes is made with the
    mutex released. *)
Theorem janitor_Run_safe cases w :
  let o := janitor_Run cases w in
  returns o = true ∧
  items (store (final o)) ⊆ items (store w) ∧
  filter (λ kv, Expiration kv.2 <= 0) (items (store w)) ⊆ items (store (final o)) ∧
  defaultExpiration (store (final o)) = defaultExpiration (store w) ∧
  onEvicted (store (final o)) = onEvicted (store w) ∧
  held_after false (emitted w o) = false ∧
  calls_unguarded false (emitted w o) = true.
Proof.
  cbn zeta. unfold emitted.
  assert (H : returns (janitor_Run cases w) = true ∧
    items (store (final (janitor_Run cases w))) ⊆ items (store w) ∧
    filter (λ kv, Expiration kv.2 <= 0) (items (store w)) ⊆
      items (store (final (janitor_Run cases w))) ∧
    defaultExpiration (store (final (janitor_Run cases w))) =
      defaultExpiration (store w) ∧
    onEvicted (store (final (janitor_Run cases w))) = onEvicted (store w) ∧
    ∃ evs, trace (final (janitor_Run cases w)) = trace w ++ evs ∧
           held_after false evs = false ∧ calls_unguarded false evs = true).
  { revert w. induction cases as [|[] cases IH]; intros w.
    - cbn. repeat split; try done.
      + apply map_filter_subseteq.
      + exists []. by rewrite app_nil_r.
    - rewrite janitor_Run_tick.
      destruct (IH (final (DeleteExpired w)))
        as (Hr & Hsub & Hkeep & Hde & Hf & evs & Htr & Hheld & Hcalls).
      rewrite Hr, Hde, Hf, Htr. clear IH Hr Hde Hf Htr.
      rewrite DeleteExpired_eq in *; cbn in *.
      split; [done|]. split; [|split; [|split; [done|split; [done|]]]].
      + etrans; [apply Hsub | apply map_filter_subseteq].
      + etrans; [|apply Hkeep]. apply map_subseteq_spec. intros k it.
        rewrite !map_lookup_filter_Some. unfold dead; cbn.
        intros [Hk Hle]. repeat split; try done. lia.
      + eexists. rewrite <- app_assoc. split; [done|].
        rewrite held_after_app, calls_unguarded_app. cbn.
        destruct (onEvicted (store w)); cbn.
        * by rewrite held_after_hook_events, calls_unguarded_hook_events.
        * done.
    - cbn. repeat split; try done.
      + apply map_filter_subseteq.
      + exists []. by rewrite app_nil_r. }
  destruct H as (Hr & Hsub & Hkeep & Hde & Hf & evs & Htr & Hheld & Hcalls).
  rewrite Htr, drop_app_length. done.
Qed.

End Properties.

(** ** The properties at the sample states *)

(** C1. [Add] writes through the unexported [set], which stamps the entry
    with the clock reading alone where [Set] adds the duration.  On a fresh
    store, [Add("k", 1, 10ns)] at reading 100 succeeds; a second
    [Add("k", 2, 10ns)] at reading 101, inside the ten nanoseconds of the
    first, succeeds too instead of failing with the "already exists" error,
    and the stored value is 2. *)
Theorem Add_twice_within_ttl :
  let o1 := Add "k" (Some 1%nat) 10 sample_empty in
  let o2 := Add "k" (Some 2%nat) 10 (final o1) in
  value o1 = Some None ∧
  items (store (final o1)) !! "k" = Some (mkItem (Some 1%nat) 100) ∧
  now (final o1) = 101 ∧
  value o2 = Some None ∧
  value o2 ≠ Some (Some (KeyExists "k")) ∧
  Object <$> items (store (final o2)) !! "k" = Some (Some 2%nat).
Proof. vm_compute. repeat split; done. Qed.

(** C3. [Delete] on a present key, with a hook installed: the hook call
    sits between taking the mutex and its deferred release, so it runs with
    the mutex held. *)
Theorem Delete_calls_hook_with_mutex_held :
  emitted sample_hooked (Delete "k" sample_hooked) =
    [EvLock; EvCall tt "k" (Some 7%nat); EvUnlock] ∧
  calls_unguarded false (emitted sample_hooked (Delete "k" sample_hooked)) = false.
Proof.
  apply (Delete_calls_hook_under_lock sample_hooked "k" tt
           (mkItem (Some 7%nat) 50)); reflexivity.
Qed.

Lemma Set_then_Get_witness :
  value (Get "k" (final (Set_ "k" (Some 7%nat) 10 sample_empty))) =
    Some (Some 7%nat, true).
Proof.
  destruct (Set_then_Get sample_empty "k" (Some 7%nat) 10) as [_ Hget].
  - lia.
  - unfold int64. lia.
  - vm_compute. discriminate.
  - unfold int64. vm_compute. split; [discriminate | reflexivity].
  - destruct (Hget (final (Set_ "k" (Some 7%nat) 10 sample_empty))) as [Hlive _].
    + reflexivity.
    + unfold int64. vm_compute. split; [discriminate | reflexivity].
    + apply Hlive. vm_compute. discriminate.
Defined.

Lemma DeleteExpired_spec_witness :
  items (store (final (DeleteExpired sample_hooked))) !! "k" = None ∧
  calls (emitted sample_hooked (DeleteExpired sample_hooked)) ≡ₚ
    [("k", Some 7%nat)].
Proof.
  destruct (DeleteExpired_spec sample_hooked tt) as (_ & Hitems & _ & Hcalls & _).
  - reflexivity.
  - split.
    + rewrite Hitems. vm_compute. reflexivity.
    + rewrite Hcalls. vm_compute. reflexivity.
Defined.

Lemma Replace_needs_live_entry_witness :
  value (Replace "missing" (Some 1%nat) 10 sample_hooked) =
    Some (Some (KeyNotFound "missing")) ∧
  value (Replace "k" (Some 1%nat) 10 sample_hooked) =
    Some (Some (KeyNotFound "k")).
Proof.
  split.
  - apply (Replace_needs_live_entry sample_hooked "missing" (Some 1%nat) 10).
    left. reflexivity.
  - apply (Replace_needs_live_entry sample_hooked "k" (Some 1%nat) 10).
    right. exists (mkItem (Some 7%nat) 50). split; [reflexivity|].
    vm_compute. split; reflexivity.
Defined.

Lemma Delete_spec_witness :
  calls (emitted sample_hooked (Delete "missing" sample_hooked)) = [] ∧
  calls (emitted sample_hooked (Delete "k" sample_hooked)) = [("k", Some 7%nat)].
Proof.
  destruct (Delete_spec sample_hooked "missing") as (_ & Habsent & _).
  destruct (Delete_spec sample_hooked "k") as (_ & _ & Hpresent).
  split.
  - apply Habsent. reflexivity.
  - apply (Hpresent (mkItem (Some 7%nat) 50)). reflexivity.
Defined.

Lemma GetWithExpiration_spec_witness :
  value (GetWithExpiration "z" sample_hooked) = Some (Some 8%nat, time_zero, true) ∧
  value (GetWithExpiration "k" sample_hooked) = Some (None, time_zero, false).
Proof.
  destruct (GetWithExpiration_spec sample_hooked "z") as (_ & _ & Hnever & _).
  destruct (GetWithExpiration_spec sample_hooked "k") as (_ & _ & _ & Hgone).
  split.
  - apply (Hnever (mkItem (Some 8%nat) 0)); [reflexivity|]. cbn. lia.
  - apply Hgone. right. exists (mkItem (Some 7%nat) 50). split; [reflexivity|].
    vm_compute. split; reflexivity.
Defined.

Lemma Set_negative_never_expires_witness :
  value (Get "k" (final (Set_ "k" (Some 7%nat) (-5) sample_hooked))) =
    Some (Some 7%nat, true).
Proof.
  destruct (Set_negative_never_expires sample_hooked "k" (Some 7%nat) (-5))
    as [Hstored Hnever]; [lia|].
  apply (Hnever _ Hstored).
Defined.

Lemma only_deletes_call_hook_witness :
  calls (emitted sample_hooked
           (Ret tt (exec_all [CallSet "k" (Some 1%nat) 10;
                              CallReplace "z" (Some 2%nat) 0;
                              CallFlush] sample_hooked))) = [].
Proof. apply only_deletes_call_hook. repeat constructor. Defined.

Lemma only_writes_add_entries_witness :
  items (store (exec_all [CallDelete "k"; CallDeleteExpired; CallGet "z"]
                  sample_hooked)) ⊆ sample_items.
Proof.
  apply (only_writes_add_entries
           [CallDelete "k"; CallDeleteExpired; CallGet "z"] sample_hooked).
  repeat constructor.
Defined.

Lemma last_OnEvicted_wins_witness :
  onEvicted (store (exec_all ([CallOnEvicted None] ++
                              CallOnEvicted (Some tt) ::
                              [CallDelete "k"; CallFlush]) sample_timed)) =
  Some tt.
Proof. apply last_OnEvicted_wins. repeat constructor. Defined.

Lemma SetDefault_then_Get_witness :
  value (Get "q" (final (SetDefault "q" (Some 3%nat) sample_timed))) =
    Some (Some 3%nat, true).
Proof.
  apply (SetDefault_then_Get sample_timed "q" (Some 3%nat)).
  - vm_compute. reflexivity.
  - unfold int64. vm_compute. split; [discriminate | reflexivity].
  - vm_compute. discriminate.
  - unfold int64. vm_compute. split; [discriminate | reflexivity].
  - reflexivity.
  - unfold int64. vm_compute. split; [discriminate | reflexivity].
  - vm_compute. discriminate.
Defined.

Lemma Set_overflow_never_expires_witness :
  value (Get "q" (final (Set_ "q" (Some 3%nat) (2 ^ 63 - 1) sample_empty))) =
    Some (Some 3%nat, true).
Proof.
  apply (Set_overflow_never_expires sample_empty "q" (Some 3%nat) (2 ^ 63 - 1)).
  - vm_compute. reflexivity.
  - unfold int64. vm_compute. split; [discriminate | reflexivity].
  - unfold int64. vm_compute. split; [discriminate | reflexivity].
  - vm_compute. discriminate.
  - reflexivity.
Defined.

Lemma Set_then_GetWithExpiration_witness :
  value (GetWithExpiration "q"
           (final (Set_ "q" (Some 3%nat) 10 sample_empty))) =
    Some (Some 3%nat, 110, true).
Proof.
  apply (Set_then_GetWithExpiration sample_empty "q" (Some 3%nat) 10).
  - lia.
  - vm_compute. discriminate.
  - vm_compute. reflexivity.
  - reflexivity.
  - unfold int64. vm_compute. split; [discriminate | reflexivity].
  - vm_compute. discriminate.
Defined.

Lemma Add_succeeds_iff_no_live_entry_witness :
  Object <$> items (store (final (Add "k" (Some 1%nat) 10 sample_hooked))) !! "k" =
    Some (Some 1%nat) ∧
  store (final (Add "z" (Some 1%nat) 10 sample_hooked)) = store sample_hooked.
Proof.
  destruct (Add_succeeds_iff_no_live_entry sample_hooked "k" (Some 1%nat) 10)
    as (_ & _ & Hfree & _).
  destruct (Add_succeeds_iff_no_live_entry sample_hooked "z" (Some 1%nat) 10)
    as (_ & _ & _ & Hlive).
  split.
  - apply Hfree. right. exists (mkItem (Some 7%nat) 50).
    split; [reflexivity|]. vm_compute. split; reflexivity.
  - apply Hlive. intros [Hk|(it & Hk & Hpos & _)].
    + vm_compute in Hk. discriminate.
    + vm_compute in Hk. injection Hk as <-. vm_compute in Hpos. discriminate.
Defined.

Lemma Replace_live_entry_witness :
  value (Replace "z" (Some 1%nat) 10 sample_hooked) = Some None.
Proof.
  apply (Replace_live_entry sample_hooked "z" (Some 1%nat) 10
           (mkItem (Some 8%nat) 0)).
  - reflexivity.
  - intros [Hpos _]. vm_compute in Hpos. discriminate.
Defined.

Lemma Get_does_not_reap_witness :
  value (Get "k" sample_hooked) = Some (None, false) ∧
  items (store (final (Get "k" sample_hooked))) !! "k" =
    Some (mkItem (Some 7%nat) 50).
Proof.
  destruct (Get_does_not_reap sample_hooked "k" (mkItem (Some 7%nat) 50))
    as (Hv & Hk & _).
  - reflexivity.
  - vm_compute. split; reflexivity.
  - split; [exact Hv | exact Hk].
Defined.

Lemma DeleteExpired_without_hook_witness :
  emitted sample_timed (DeleteExpired sample_timed) = [EvLock; EvUnlock].
Proof. apply (DeleteExpired_without_hook sample_timed). reflexivity. Defined.

Lemma DeleteExpired_twice_witness :
  items (store (final (DeleteExpired (final (DeleteExpired sample_hooked))))) =
  filter (λ kv, ¬ dead 101 kv) sample_items.
Proof.
  destruct (DeleteExpired_twice sample_hooked
              (final (DeleteExpired sample_hooked))) as [Hitems _].
  - reflexivity.
  - vm_compute. discriminate.
  - exact Hitems.
Defined.

Lemma Set_then_Delete_witness :
  items (store (final (Delete "q" (final (Set_ "q" (Some 3%nat) 10 sample_hooked))))) =
  sample_items.
Proof.
  apply (Set_then_Delete sample_hooked "q" (Some 3%nat) 10). reflexivity.
Defined.

Lemma OnEvicted_then_Delete_witness :
  emitted (final (OnEvicted (Some tt) sample_timed))
    (Delete "k" (final (OnEvicted (Some tt) sample_timed))) =
  [EvLock; EvCall tt "k" (Some 7%nat); EvUnlock].
Proof.
  apply (OnEvicted_then_Delete sample_timed (Some tt) "k"
           (mkItem (Some 7%nat) 50)).
  reflexivity.
Defined.

Lemma Get_and_Expired_witness :
  value (Get "k" sample_hooked) =
  Some (if Expired (UnixNano (now sample_hooked)) (mkItem (Some 7%nat) 50)
        then (None, false) else (Some 7%nat, true)).
Proof.
  apply (Get_and_Expired sample_hooked "k" (mkItem (Some 7%nat) 50)).
  - reflexivity.
  - vm_compute. discriminate.
Defined.
